(** * sssom-py: prefix maps, entity pairs and the metadata converter

    A shallow embedding of [sssom/context.py] and [sssom/datamodel_util.py].
    Python dictionaries are finite maps ([gmap]); a dictionary that is
    passed around and updated in place lives in a heap of objects, so that
    aliasing between the caller's object and the returned one is visible;
    [logging.warning] appends a record to a log. *)

From Stdlib Require Import ZArith Ascii Floats.PrimFloat.
From stdpp Require Import gmap strings list fin_maps.

Set Warnings "-register-all,-clear-no-such-hyp".
Open Scope string_scope.

(** ** JSON values, as [json.loads] returns them *)

Inductive json :=
| JNull
| JBool (b : bool)
| JInt (n : Z)
| JFloat (f : float)
| JStr (s : string)
| JArr (l : list json)
| JObj (o : gmap string json).

(** Python's truth value of a decoded JSON value ([if v:]). *)
Definition truthy (v : json) : bool :=
  match v with
  | JNull => false
  | JBool b => b
  | JInt n => negb (n =? 0)%Z
  | JFloat f => negb (PrimFloat.eqb f 0%float)
  | JStr s => negb (String.eqb s "")
  | JArr l => negb (bool_decide (length l = 0))
  | JObj o => negb (bool_decide (size o = 0))
  end.

(** [v == s] for a decoded value [v] and a [str] [s]: only a string equals
    a string. *)
Definition json_eq_str (v : json) (s : string) : bool :=
  match v with
  | JStr u => bool_decide (u = s)
  | _ => false
  end.

(** ** Objects, log and the state monad *)

(** The prefix maps handed to and returned by the functions of
    [sssom.context] are Python [dict] objects: a location names the object,
    the heap holds its current bindings. *)
Abbreviation loc := nat.

(** What [logging.warning] is called with: the values interpolated in the
    two f-strings of [sssom.context]. *)
Inductive log_record :=
| BuiltInPrefixDiffers (k specified default_uri : string)
    (* f"Built-in prefix {k} is specified ({prefix_map[k]}) but differs
       from default ({builtinmap[k]})" *)
| AlreadyInPrefixMap (key : string) (present : json) (v : string).
    (* f"{key} is already in prefix map ({prefix_map[key]}, but with a
       different value than {v}" *)

Record state := State {
  heap : list (gmap string string);
  log : list log_record
}.

Definition M (A : Type) : Type := state → A * state.

#[export] Instance M_ret : MRet M := λ A a s, (a, s).
#[export] Instance M_bind : MBind M :=
  λ A B f m s, let '(a, s') := m s in f a s'.

(** [d = {...}]: a new object. *)
Definition alloc (d : gmap string string) : M loc :=
  λ s, (length (heap s), State (heap s ++ [d]) (log s)).

(** The bindings of the object at [l]; a location beyond the heap names no
    object, and no function is run on one. *)
Definition load (l : loc) : M (gmap string string) :=
  λ s, (default ∅ (heap s !! l), s).

(** [d[k] = v] on the object at [l]. *)
Definition setitem (l : loc) (k v : string) : M unit :=
  λ s, (tt, State (alter (insert k v) l (heap s)) (log s)).

Definition warning (r : log_record) : M unit :=
  λ s, (tt, State (heap s) (log s ++ [r])).

(** Python iterates over a dictionary in the order of insertion; a [gmap]
    is enumerated by [map_to_list] (or folded by [map_fold]) in an order of
    its own.  Every iteration of the loops below reads and writes only the
    key it visits, and the keys of a dictionary are distinct, so the
    resulting maps and the warnings, up to their order in the log, are the
    same for every order of enumeration. *)

(** [for x in xs: body x]. *)
Fixpoint for_ {A} (xs : list A) (body : A → M unit) : M unit :=
  match xs with
  | [] => mret tt
  | x :: xs' => body x ≫= λ _, for_ xs' body
  end.

(** A loop that threads a local variable. *)
Fixpoint foldM {A B} (body : B → A → M B) (b : B) (xs : list A) : M B :=
  match xs with
  | [] => mret b
  | x :: xs' => body b x ≫= λ b', foldM body b' xs'
  end.

(** ** [sssom/context.py] *)

Definition SSSOM_BUILT_IN_PREFIXES : list string :=
  ["sssom"; "owl"; "rdf"; "rdfs"; "skos"].

Record Metadata := mkMetadata {
  prefix_map : gmap string json;
  metadata : gmap string json
}.

Section Context.

(** [internal_context.py] and [external_context.py] are generated files
    that are not part of the sources.  Each holds a JSON-LD document, an
    object whose ["@context"] member is an object; [contxt] and
    [contxt_external] stand for [get_jsonld_context()["@context"]] and
    [get_external_jsonld_context()["@context"]]. *)
Variable contxt : gmap string json.
Variable contxt_external : gmap string json.

(** The local [prefix_map] is built and returned; no other name refers to
    it, so the function is the value of the dictionary it builds. *)
Definition get_built_in_prefix_map : gmap string string :=
  map_fold
    (λ key v prefix_map,
       if bool_decide (key ∈ SSSOM_BUILT_IN_PREFIXES) then
         match v with
         | JStr s => <[key := s]> prefix_map
         | _ => prefix_map
         end
       else prefix_map)
    ∅ contxt.

(** [not prefix_map]: [None] and the empty dictionary are false. *)
Definition is_falsy (prefix_map : option loc) : M bool :=
  match prefix_map with
  | None => mret true
  | Some l => d ← load l; mret (bool_decide (size d = 0))
  end.

(** The body of the loop [for k, v in builtinmap.items()]. *)
Definition add_built_in (builtinmap pm : loc) (kv : string * string)
    : M unit :=
  let '(k, v) := kv in
  d ← load pm;
  match d !! k with
  | None => setitem pm k v
  | Some u =>
      bm ← load builtinmap;
      if bool_decide (bm !!! k ≠ u)
      then warning (BuiltInPrefixDiffers k u (bm !!! k))
      else mret tt
  end.

Definition add_built_in_prefixes_to_prefix_map
    (prefix_map : option loc) : M loc :=
  builtinmap ← alloc get_built_in_prefix_map;
  b ← is_falsy prefix_map;
  match prefix_map with
  | Some pm =>
      if (b : bool) then mret builtinmap
      else
        items ← load builtinmap;
        for_ (map_to_list items) (add_built_in builtinmap pm);;
        mret pm
  | None => mret builtinmap
  end.

(** The first loop of [get_default_metadata]: what an entry of the
    built-in context contributes to the prefix map. *)
Definition from_context (prefix_map : gmap string json) (key : string)
    (v : json) : gmap string json :=
  match v with
  | JStr _ => <[key := v]> prefix_map
  | JObj o =>
      match o !! "@id", o !! "@prefix" with
      | Some i, Some p =>
          if truthy p then <[key := i]> prefix_map else prefix_map
      | _, _ => prefix_map
      end
  | _ => prefix_map
  end.

(** The second loop: an entry of the external context. *)
Definition from_external (prefix_map : gmap string json)
    (kv : string * json) : M (gmap string json) :=
  let '(key, v) := kv in
  match v with
  | JStr s =>
      match prefix_map !! key with
      | None => mret (<[key := v]> prefix_map)
      | Some present =>
          if negb (json_eq_str present s)
          then warning (AlreadyInPrefixMap key present s);; mret prefix_map
          else mret prefix_map
      end
  | _ => mret prefix_map
  end.

Definition context_prefix_map : gmap string json :=
  map_fold (λ key v pm, from_context pm key v) ∅ contxt.

Definition get_default_metadata : M Metadata :=
  let metadata : gmap string json := ∅ in
  let prefix_map := context_prefix_map in
  prefix_map ← foldM from_external prefix_map (map_to_list contxt_external);
  mret (mkMetadata prefix_map metadata).

End Context.

(** ** [sssom/datamodel_util.py]: [EntityPair] *)

Section EntityPair.

(** [Entity] is a class of the generated [sssom.sssom_datamodel], which is
    not part of the sources: a type with Python equality and an [id]
    that is a [str].  [hash] is Python's [hash] on a tuple of two [str]. *)
Context {Entity : Type} `{EqDecision Entity}.
Variable id : Entity → string.
Variable hash : string * string → Z.

Record EntityPair := mkEntityPair {
  subject_entity : Entity;
  object_entity : Entity
}.

(** [__hash__], the one method the class defines.  [<=] on [str] is the
    lexicographic order of the code points, which is the order of the
    bytes of their UTF-8 encoding. *)
Definition EntityPair_hash (self : EntityPair) : Z :=
  let t :=
    if String.leb (id (subject_entity self)) (id (object_entity self))
    then (id (subject_entity self), id (object_entity self))
    else (id (object_entity self), id (subject_entity self)) in
  hash t.

(** [__eq__] is the one [@dataclass] generates ([eq=True] is the default
    and the class does not define its own): the tuples of the fields, in
    the order of their declaration, are compared. *)
Definition EntityPair_eq (self other : EntityPair) : bool :=
  bool_decide ((subject_entity self, object_entity self) =
               (subject_entity other, object_entity other)).

End EntityPair.

Arguments EntityPair Entity : clear implicits.
Arguments mkEntityPair {Entity} _ _.

(** An entity that is its identifier. *)
Record IdEntity := mkIdEntity { entity_id : string }.

#[export] Instance IdEntity_eq_dec : EqDecision IdEntity.
Proof. solve_decision. Defined.

(** ** Specification functions *)

(** What an entry of the built-in context binds its key to in the default
    prefix map, if it declares a prefix. *)
Definition prefix_uri (v : json) : option json :=
  match v with
  | JStr _ => Some v
  | JObj o =>
      match o !! "@id", o !! "@prefix" with
      | Some i, Some p => if truthy p then Some i else None
      | _, _ => None
      end
  | _ => None
  end.

(** The entries of the external context that are literal strings. *)
Definition literal (v : json) : option json :=
  match v with JStr _ => Some v | _ => None end.

(** The literal entries among the items of the external context. *)
Definition literals (items : list (string * json)) : list (string * json) :=
  omap (λ kv, (kv.1,.) <$> literal kv.2) items.

(** The warnings the second loop of [get_default_metadata] emits on the
    prefix map [pm]. *)
Definition external_conflicts (pm : gmap string json)
    (items : list (string * json)) : list log_record :=
  omap (λ '(key, v),
          match v, pm !! key with
          | JStr s, Some present =>
              if negb (json_eq_str present s)
              then Some (AlreadyInPrefixMap key present s) else None
          | _, _ => None
          end) items.

(** The warnings the loop of [add_built_in_prefixes_to_prefix_map] emits
    on the user map [m], for the items of the built-in map. *)
Definition conflicts (m : gmap string string)
    (items : list (string * string)) : list log_record :=
  omap (λ '(k, v),
          match m !! k with
          | Some u =>
              if bool_decide (v ≠ u)
              then Some (BuiltInPrefixDiffers k u v) else None
          | None => None
          end) items.

(** ** Data to evaluate on

    A small JSON-LD context of the shape the generator emits: a namespace is
    either a literal URI or an object with ["@id"] and ["@prefix"]; a slot is
    an object without ["@prefix"]. *)
Definition sample_context : gmap string json :=
  list_to_map
    [ ("owl", JStr "http://www.w3.org/2002/07/owl#");
      ("rdf", JStr "http://www.w3.org/1999/02/22-rdf-syntax-ns#");
      ("skos", JStr "http://www.w3.org/2004/02/skos/core#");
      ("sssom", JObj (list_to_map
          [ ("@id", JStr "https://w3id.org/sssom/");
            ("@prefix", JBool true) ]));
      ("dcterms", JStr "http://purl.org/dc/terms/");
      ("subject_id", JObj (list_to_map [ ("@type", JStr "@id") ])) ].

Definition sample_external_context : gmap string json :=
  list_to_map
    [ ("skos", JStr "http://example.org/skos#");
      ("dcterms", JStr "http://purl.org/dc/terms/");
      ("subject_id", JStr "http://example.org/subject_id/");
      ("wikidata", JStr "http://www.wikidata.org/entity/") ].


Definition user_map : gmap string string :=
  {[ "a" := "http://example.org/a/";
     "skos" := "http://example.org/skos#" ]}.

Definition initial_state : state := State [user_map] [].

(** ** [sssom/datamodel_util.py]: [MetaTSVConverter] *)

(** *** The methods of [str] that [convert] calls *)

(** [s.replace(old, new)]: the occurrences of [old] are replaced from left
    to right, without overlap; with an empty [old], [new] is put before
    every character and at the end.  [skip] counts the characters of an
    occurrence that are still to be dropped. *)
Fixpoint replace_from (old new : string) (skip : nat) (s : string) : string :=
  match s with
  | EmptyString => EmptyString
  | String c s' =>
      match skip with
      | S n => replace_from old new n s'
      | O =>
          if String.prefix old s
          then new +:+ replace_from old new (String.length old - 1) s'
          else String c (replace_from old new 0 s')
      end
  end.

Fixpoint interleave (new s : string) : string :=
  match s with
  | EmptyString => new
  | String c s' => new +:+ String c (interleave new s')
  end.

Definition str_replace (old new s : string) : string :=
  if bool_decide (old = EmptyString) then interleave new s
  else replace_from old new 0 s.

(** [s.endswith(suffix)]. *)
Fixpoint endswith (suffix s : string) : bool :=
  bool_decide (s = suffix) ||
  match s with
  | EmptyString => false
  | String _ s' => endswith suffix s'
  end.

(** [sub in s]. *)
Fixpoint contains (sub s : string) : bool :=
  String.prefix sub s ||
  match s with
  | EmptyString => false
  | String _ s' => contains sub s'
  end.

(** *** The data frame *)

(** A row of [self.df], as [load] leaves it ([read_csv] followed by
    [fillna("")]): [Element ID] and [Scope] are text, on which [convert]
    calls methods of [str]; the other cells are only compared and stored,
    and are text or numbers. *)
Record tsv_row := mkTsvRow {
  Element_ID : string;
  Datatype : json;
  Description : json;
  Equivalent_property : json;
  Required : json;
  Scope : string
}.

(** [v == 1]: the integer, the float and [True] equal [1]. *)
Definition json_eq_one (v : json) : bool :=
  match v with
  | JInt n => (n =? 1)%Z
  | JFloat f => PrimFloat.eqb f 1%float
  | JBool b => b
  | _ => false
  end.

(** *** [convert] *)

(** The two slots [slots] starts with. *)
Definition initial_slots : gmap string json :=
  <["mappings" := JObj (
      <["description" := JStr "Contains a list of mapping objects"]> (
      <["range" := JStr "mapping"]> (
      <["multivalued" := JBool true]> ∅)))]> (
  <["id" := JObj (
      <["description" := JStr "CURIE or IRI identifier"]> (
      <["identifier" := JBool true]> ∅))]> ∅).

(** What the loop updates: [slots], [classes['mapping set']['slots']] and
    [classes['mapping']['slots']]. *)
Record converter_state := mkConverterState {
  cv_slots : gmap string json;
  cv_mapping_set_slots : list string;
  cv_mapping_slots : list string
}.

Definition initial_converter_state : converter_state :=
  mkConverterState initial_slots ["mappings"] [].

(** [id = id.replace("sssom:", "")]. *)
Definition slot_id (r : tsv_row) : string :=
  str_replace "sssom:" "" (Element_ID r).

(** The value [dt] ends with. *)
Definition slot_range (r : tsv_row) : string :=
  if json_eq_str (Datatype r) "xsd:double" then "double"
  else if endswith "_id" (slot_id r) || endswith "match_field" (slot_id r)
  then "entity"
  else "string".

Definition slot_uri_of (id : string) : option string :=
  if bool_decide (id = "subject_id") then Some "owl:annotatedSource"
  else if bool_decide (id = "object_id") then Some "owl:annotatedTarget"
  else if bool_decide (id = "predicate_id") then Some "owl:annotatedProperty"
  else None.

(** The dictionary [slot] of a row, once the body of the loop has run:
    [slots[id]] holds the object that [slot['slot_uri'] = ...] updates
    afterwards. *)
Definition slot_of (r : tsv_row) : gmap string json :=
  let slot : gmap string json := {[ "description" := Description r ]} in
  let ep := Equivalent_property r in
  let slot :=
    if negb (json_eq_str ep "") then <["mappings" := JArr [ep]]> slot
    else slot in
  let slot :=
    if json_eq_one (Required r) then <["required" := JBool true]> slot
    else slot in
  let slot := <["range" := JStr (slot_range r)]> slot in
  match slot_uri_of (slot_id r) with
  | Some slot_uri => <["slot_uri" := JStr slot_uri]> slot
  | None => slot
  end.

(** The body of [for _, row in self.df.iterrows()]. *)
Definition convert_row (st : converter_state) (r : tsv_row)
    : converter_state :=
  if bool_decide (Element_ID r = "ID") then st
  else
    let id := slot_id r in
    let slots := <[id := JObj (slot_of r)]> (cv_slots st) in
    let scope := Scope r in
    let mapping_set_slots :=
      if contains "G" scope then (cv_mapping_set_slots st ++ [id])%list
      else cv_mapping_set_slots st in
    let mapping_slots :=
      if contains "L" scope then (cv_mapping_slots st ++ [id])%list
      else cv_mapping_slots st in
    mkConverterState slots mapping_set_slots mapping_slots.

(** [obj], with [slots] and [classes] as the loop leaves them. *)
Definition schema_of (st : converter_state) : json :=
  let classes : gmap string json :=
    <["mapping set" := JObj (
        <["description" := JStr "Represents a set of mappings"]> (
        <["slots" := JArr (JStr <$> cv_mapping_set_slots st)]> ∅))]> (
    <["mapping" := JObj (
        <["description" := JStr
            "Represents an individual mapping between a pair of entities"]> (
        <["slots" := JArr (JStr <$> cv_mapping_slots st)]> (
        <["class_uri" := JStr "owl:Axiom"]> ∅)))]> (
    <["entity" := JObj (
        <["description" := JStr
            "Represents any entity that can be mapped, such as an OWL class or SKOS concept"]> (
        <["mappings" := JArr [JStr "rdf:Resource"]]> (
        <["slots" := JArr [JStr "id"]]> ∅)))]> ∅)) in
  JObj (
    <["id" := JStr "http://w3id.org/sssom"]> (
    <["description" := JStr
        "Datamodel for Simple Standard for Sharing Ontology Mappings (SSSOM)"]> (
    <["imports" := JArr [JStr "linkml:types"]]> (
    <["prefixes" := JObj (
        <["linkml" := JStr "https://w3id.org/linkml/"]> (
        <["sssom" := JStr "http://w3id.org/sssom/"]> ∅))]> (
    <["see_also" := JArr [JStr "https://github.com/OBOFoundry/SSSOM"]]> (
    <["default_curi_maps" := JArr [JStr "semweb_context"]]> (
    <["default_prefix" := JStr "sssom"]> (
    <["slots" := JObj (cv_slots st)]> (
    <["classes" := JObj classes]> ∅))))))))).

Definition convert (df : list tsv_row) : json :=
  schema_of (foldl convert_row initial_converter_state df).

(** [obj['slots']] and [obj['classes'][cls]['slots']] of a schema. *)
Definition schema_slots (obj : json) : option (gmap string json) :=
  match obj with
  | JObj o => match o !! "slots" with Some (JObj s) => Some s | _ => None end
  | _ => None
  end.

Definition class_slots (obj : json) (cls : string) : option (list json) :=
  match obj with
  | JObj o =>
      match o !! "classes" with
      | Some (JObj cs) =>
          match cs !! cls with
          | Some (JObj c) =>
              match c !! "slots" with Some (JArr l) => Some l | _ => None end
          | _ => None
          end
      | _ => None
      end
  | _ => None
  end.

(** The rows the loop does not skip. *)
Definition is_element (r : tsv_row) : Prop := Element_ID r ≠ "ID".

#[export] Instance is_element_dec r : Decision (is_element r).
Proof. unfold is_element. apply _. Defined.

(** A few rows of a metadata table. *)
Definition metadata_rows : list tsv_row :=
  [ mkTsvRow "ID" (JStr "Datatype") (JStr "Description")
      (JStr "Equivalent property") (JStr "Required") "Scope";
    mkTsvRow "sssom:subject_id" (JStr "rdfs:Resource")
      (JStr "The ID of the subject of the mapping")
      (JStr "owl:annotatedSource") (JInt 1) "L";
    mkTsvRow "confidence" (JStr "xsd:double")
      (JStr "A score between 0 and 1") (JStr "") (JInt 0) "L";
    mkTsvRow "sssom:license" (JStr "xsd:string")
      (JStr "A url to the license of the mapping") (JStr "dcterms:license")
      (JInt 0) "G";
    mkTsvRow "subject_id" (JStr "rdfs:Resource")
      (JStr "The subject, once more") (JStr "") (JInt 0) "GL" ].

(** ** Properties of [get_built_in_prefix_map] *)

Section ContextFacts.

Variable contxt : gmap string json.

Abbreviation builtin := (get_built_in_prefix_map contxt).

Lemma get_built_in_prefix_map_lookup k s :
  builtin !! k = Some s ↔
  k ∈ SSSOM_BUILT_IN_PREFIXES ∧ contxt !! k = Some (JStr s).
Proof.
  unfold get_built_in_prefix_map. revert k s.
  apply (map_fold_weak_ind (λ r m, ∀ k s,
    r !! k = Some s ↔ k ∈ SSSOM_BUILT_IN_PREFIXES ∧ m !! k = Some (JStr s))).
  - intros k s. rewrite !lookup_empty. naive_solver.
  - intros i x m r Hi IH k s.
    destruct (decide (i = k)) as [->|Hne].
    + rewrite lookup_insert_eq.
      case_bool_decide as Hin.
      * destruct x; rewrite ?lookup_insert_eq, ?IH, ?Hi; naive_solver.
      * rewrite IH, Hi. naive_solver.
    + rewrite (lookup_insert_ne m) by done.
      case_bool_decide; [destruct x|];
        rewrite ?lookup_insert_ne by done; apply IH.
Qed.

(** *** The loop of [add_built_in_prefixes_to_prefix_map] *)

Lemma conflicts_insert_fresh m k v items :
  k ∉ items.*1 → conflicts (<[k:=v]> m) items = conflicts m items.
Proof.
  induction items as [|[k' v'] items IH]; [done|].
  rewrite fmap_cons, not_elem_of_cons. intros [Hne Hk]. cbn in Hne.
  unfold conflicts in *. cbn.
  rewrite lookup_insert_ne by done. by rewrite IH.
Qed.

Lemma union_insert_bound {A} (m r : gmap string A) k u v :
  m !! k = Some u → m ∪ <[k:=v]> r = m ∪ r.
Proof.
  intros Hk. apply map_eq. intros i. rewrite !lookup_union.
  destruct (decide (k = i)) as [<-|Hne].
  - rewrite Hk. by destruct (<[k:=v]> r !! k), (r !! k).
  - by rewrite lookup_insert_ne.
Qed.

Lemma alter_insert_heap (h : list (gmap string string)) l m k v :
  h !! l = Some m → alter (insert k v) l h = <[l := <[k:=v]> m]> h.
Proof.
  intros Hl. apply list_eq. intros i. destruct (decide (i = l)) as [->|Hi].
  - assert (l < length h) by (by eapply lookup_lt_Some).
    by rewrite list_lookup_alter_eq, list_lookup_insert_eq, Hl.
  - by rewrite list_lookup_alter_ne, list_lookup_insert_ne.
Qed.

(** One iteration, on a state where [l] holds the user map [m] and [lb]
    the built-in map. *)
Lemma add_built_in_run s lb l bm m k v :
  heap s !! lb = Some bm →
  heap s !! l = Some m →
  bm !! k = Some v →
  add_built_in lb l (k, v) s =
    (tt, match m !! k with
         | None => State (<[l := <[k:=v]> m]> (heap s)) (log s)
         | Some u => State (heap s) (log s ++ conflicts m [(k, v)])
         end).
Proof.
  intros Hlb Hl Hk. unfold add_built_in, mbind, M_bind, load.
  rewrite Hl; cbn [default from_option id].
  unfold conflicts; cbn [omap list_omap].
  destruct (m !! k) as [u|] eqn:Hmk.
  - rewrite Hlb; cbn [default from_option id].
    rewrite (lookup_total_correct bm k v Hk).
    case_bool_decide; unfold warning, mret, M_ret; [done|].
    destruct s; cbn. by rewrite app_nil_r.
  - unfold setitem. by erewrite alter_insert_heap.
Qed.

Lemma for_add_built_in items : ∀ s lb l bm m,
  l ≠ lb →
  heap s !! lb = Some bm →
  heap s !! l = Some m →
  NoDup items.*1 →
  (∀ k v, (k, v) ∈ items → bm !! k = Some v) →
  for_ items (add_built_in lb l) s =
    (tt, State (<[l := m ∪ list_to_map items]> (heap s))
               (log s ++ conflicts m items)).
Proof.
  induction items as [|[k v] items IH]; intros s lb l bm m Hne Hlb Hl Hnd Hbm.
  - cbn. unfold mret, M_ret. destruct s as [h lg]; cbn in *.
    rewrite (right_id_L ∅ (∪)), list_insert_id, app_nil_r; done.
  - rewrite fmap_cons, NoDup_cons in Hnd. destruct Hnd as [Hk Hnd].
    cbn in Hk.
    assert (Hrest : ∀ k' v', (k', v') ∈ items → bm !! k' = Some v')
      by (intros; apply Hbm; by right).
    cbn [for_]. unfold mbind at 1, M_bind at 1.
    rewrite (add_built_in_run s lb l bm m) by (done || apply Hbm; left).
    rewrite list_to_map_cons.
    unfold conflicts at 1 2; cbn [omap list_omap]; fold (conflicts m items).
    destruct (m !! k) as [u|] eqn:Hmk.
    + rewrite (union_insert_bound _ _ _ u) by done.
      erewrite IH by eauto. cbn [heap log].
      case_bool_decide; cbn; by rewrite <- ?app_assoc, ?app_nil_r.
    + erewrite (IH _ lb l bm (<[k:=v]> m)); eauto; cbn [heap log].
      * rewrite conflicts_insert_fresh by done.
        rewrite list_insert_insert_eq.
        by rewrite <- insert_union_l, insert_union_r.
      * by rewrite list_lookup_insert_ne.
      * apply list_lookup_insert_eq. by eapply lookup_lt_Some.
Qed.

(** The loop in any order of the items of the built-in map, the order of
    insertion among them: the map is the same, the warnings are the same up
    to their order. *)
Lemma for_add_built_in_any_order items s lb l bm m :
  l ≠ lb →
  heap s !! lb = Some bm →
  heap s !! l = Some m →
  items ≡ₚ map_to_list bm →
  ∃ lg,
    for_ items (add_built_in lb l) s =
      (tt, State (<[l := m ∪ bm]> (heap s)) (log s ++ lg)) ∧
    lg ≡ₚ conflicts m (map_to_list bm).
Proof.
  intros Hne Hlb Hl Hperm.
  assert (Hnd : NoDup items.*1)
    by (rewrite Hperm; apply NoDup_fst_map_to_list).
  exists (conflicts m items). split.
  - rewrite (for_add_built_in items s lb l bm m); try done.
    + rewrite (list_to_map_proper items (map_to_list bm)) by done.
      by rewrite list_to_map_to_list.
    + intros k v. rewrite Hperm. apply elem_of_map_to_list.
  - unfold conflicts. by rewrite Hperm.
Qed.

(** *** [add_built_in_prefixes_to_prefix_map], run on a state *)

(** No map, or an empty one: the result is the new built-in map. *)
Lemma add_built_in_prefixes_run_none s :
  add_built_in_prefixes_to_prefix_map contxt None s =
    (length (heap s), State (heap s ++ [builtin]) (log s)).
Proof. reflexivity. Qed.

Lemma add_built_in_prefixes_run_empty s l :
  heap s !! l = Some ∅ →
  add_built_in_prefixes_to_prefix_map contxt (Some l) s =
    (length (heap s), State (heap s ++ [builtin]) (log s)).
Proof.
  intros Hl.
  unfold add_built_in_prefixes_to_prefix_map, is_falsy, alloc, load.
  unfold mbind, M_bind, mret, M_ret. cbn [heap log].
  by rewrite (lookup_app_l_Some _ _ _ _ Hl).
Qed.

(** A map with a binding: the loop runs on the caller's object, which is
    also what is returned. *)
Lemma add_built_in_prefixes_run_bound s l m :
  heap s !! l = Some m → m ≠ ∅ →
  add_built_in_prefixes_to_prefix_map contxt (Some l) s =
    (l, State (<[l := m ∪ builtin]> (heap s) ++ [builtin])
              (log s ++ conflicts m (map_to_list builtin))).
Proof.
  intros Hl Hm.
  assert (Hlt : l < length (heap s)) by (by eapply lookup_lt_Some).
  unfold add_built_in_prefixes_to_prefix_map, is_falsy, alloc, load.
  unfold mbind, M_bind, mret, M_ret. cbn [heap log].
  rewrite (lookup_app_l_Some _ _ _ _ Hl); cbn [default from_option id].
  rewrite bool_decide_eq_false_2 by (by rewrite map_size_empty_iff).
  cbn [heap]. rewrite list_lookup_middle by done.
  cbn [default from_option id].
  erewrite (for_add_built_in _ _ (length (heap s)) l builtin m).
  - cbn [heap log]. rewrite list_to_map_to_list, insert_app_l; done.
  - lia.
  - cbn. by rewrite list_lookup_middle.
  - cbn. by apply lookup_app_l_Some.
  - apply NoDup_fst_map_to_list.
  - intros k v. apply elem_of_map_to_list.
Qed.

Lemma elem_of_conflicts m items r :
  r ∈ conflicts m items ↔
  ∃ k u v, (k, v) ∈ items ∧ m !! k = Some u ∧ v ≠ u ∧
           r = BuiltInPrefixDiffers k u v.
Proof.
  unfold conflicts. rewrite list_elem_of_omap. split.
  - intros [[k v] [Hin Hr]]. destruct (m !! k) as [u|] eqn:Hk; [|done].
    case_bool_decide; [|done]. injection Hr as <-. eauto 7.
  - intros (k & u & v & Hin & Hk & Hne & ->). exists (k, v).
    split; [done|]. rewrite Hk. by rewrite bool_decide_eq_true_2.
Qed.

Lemma union_built_in_id (m : gmap string string) :
  m ∪ builtin = m ↔ dom builtin ⊆ dom m.
Proof.
  split.
  - intros Heq. rewrite <- Heq, dom_union_L. set_solver.
  - intros Hsub. apply map_eq. intros i. rewrite lookup_union.
    destruct (m !! i) as [u|] eqn:Hi; [by destruct (builtin !! i)|].
    apply not_elem_of_dom in Hi.
    assert (i ∉ dom builtin) as ->%not_elem_of_dom by set_solver. done.
Qed.

(** C1: on a user map with at least one binding,
    [add_built_in_prefixes_to_prefix_map] returns a map in which every
    prefix of the built-in map that the user map lacks is bound to its
    built-in URI, every one that the user map binds to another URI keeps
    the user's URI, with a warning in the log, and every binding of the
    user map is kept; on no map or an empty map it returns a new object
    that holds the built-in map. *)
Theorem add_built_in_prefixes_to_prefix_map_spec s :
  (∀ l m r s',
     heap s !! l = Some m → m ≠ ∅ →
     add_built_in_prefixes_to_prefix_map contxt (Some l) s = (r, s') →
     ∃ m', heap s' !! r = Some m' ∧
       (∀ k v, builtin !! k = Some v → m !! k = None → m' !! k = Some v) ∧
       (∀ k v u, builtin !! k = Some v → m !! k = Some u → u ≠ v →
          m' !! k = Some u ∧ BuiltInPrefixDiffers k u v ∈ log s') ∧
       (∀ k u, m !! k = Some u → m' !! k = Some u)) ∧
  (∀ arg r s',
     arg = None ∨ (∃ l, arg = Some l ∧ heap s !! l = Some ∅) →
     add_built_in_prefixes_to_prefix_map contxt arg s = (r, s') →
     heap s !! r = None ∧ heap s' !! r = Some builtin).
Proof.
  split.
  - intros l m r s' Hl Hm. rewrite (add_built_in_prefixes_run_bound s l m) by done.
    intros [= <- <-]. exists (m ∪ builtin). cbn [heap log].
    assert (l < length (heap s)) by (by eapply lookup_lt_Some).
    split; [|split; [|split]].
    + apply lookup_app_l_Some. by apply list_lookup_insert_eq.
    + intros k v Hb Hk. by rewrite lookup_union_r.
    + intros k v u Hb Hk Hne. split; [by apply lookup_union_Some_l|].
      apply elem_of_app. right. apply elem_of_conflicts.
      exists k, u, v. by rewrite elem_of_map_to_list.
    + intros k u Hk. by apply lookup_union_Some_l.
  - intros arg r s' Harg Hrun.
    assert ((r, s') = (length (heap s), State (heap s ++ [builtin]) (log s)))
      as [= -> ->].
    { rewrite <- Hrun. destruct Harg as [->|(l & -> & Hl)].
      - apply add_built_in_prefixes_run_none.
      - by apply add_built_in_prefixes_run_empty. }
    split; [by apply lookup_ge_None|]. cbn. by apply list_lookup_middle.
Qed.

(** C2, as the code has it: the caller's map is left as it was when it is
    empty or binds every prefix of the built-in map already; otherwise
    the built-in bindings it lacks are inserted into the caller's own
    object, which is also the object returned.  The bindings it held are
    kept, and no other object of the caller changes. *)
Theorem add_built_in_prefixes_to_prefix_map_updates_argument s l m r s' :
  heap s !! l = Some m →
  add_built_in_prefixes_to_prefix_map contxt (Some l) s = (r, s') →
  ∃ m', heap s' !! l = Some m' ∧
    (m' = m ↔ m = ∅ ∨ dom builtin ⊆ dom m) ∧
    (m ≠ ∅ → r = l ∧ m' = m ∪ builtin) ∧
    (∀ k u, m !! k = Some u → m' !! k = Some u) ∧
    (∀ l', l' ≠ l → l' < length (heap s) → heap s' !! l' = heap s !! l').
Proof.
  intros Hl Hrun.
  assert (Hlt : l < length (heap s)) by (by eapply lookup_lt_Some).
  destruct (decide (m = ∅)) as [->|Hm].
  - rewrite add_built_in_prefixes_run_empty in Hrun by done.
    injection Hrun as <- <-. exists ∅. cbn [heap].
    split; [by apply lookup_app_l_Some|].
    split; [naive_solver|]. split; [done|]. split; [done|].
    intros l' _ Hl'. by rewrite lookup_app_l.
  - rewrite (add_built_in_prefixes_run_bound s l m) in Hrun by done.
    injection Hrun as <- <-. exists (m ∪ builtin). cbn [heap].
    split; [apply lookup_app_l_Some; by apply list_lookup_insert_eq|].
    split; [rewrite union_built_in_id; naive_solver|].
    split; [done|]. split; [intros k u Hk; by apply lookup_union_Some_l|].
    intros l' Hne Hl'.
    rewrite lookup_app_l by (by rewrite length_insert).
    by rewrite list_lookup_insert_ne.
Qed.

(** C7: a second call, on the map the first call returned, returns a map
    equal to it. *)
Theorem add_built_in_prefixes_to_prefix_map_idempotent arg s r1 s1 r2 s2 :
  (∀ l, arg = Some l → l < length (heap s)) →
  add_built_in_prefixes_to_prefix_map contxt arg s = (r1, s1) →
  add_built_in_prefixes_to_prefix_map contxt (Some r1) s1 = (r2, s2) →
  ∃ d, heap s1 !! r1 = Some d ∧ heap s2 !! r2 = Some d.
Proof.
  intros Harg Hrun1 Hrun2.
  assert (∃ m, heap s1 !! r1 = Some (m ∪ builtin)) as [m Hd].
  { destruct arg as [l|].
    - destruct (lookup_lt_is_Some_2 (heap s) l) as [m Hl]; [by apply Harg|].
      destruct (decide (m = ∅)) as [->|Hm].
      + rewrite add_built_in_prefixes_run_empty in Hrun1 by done.
        injection Hrun1 as <- <-. exists ∅. cbn.
        rewrite (left_id_L ∅ (∪)). by apply list_lookup_middle.
      + rewrite (add_built_in_prefixes_run_bound s l m) in Hrun1 by done.
        injection Hrun1 as <- <-. exists m. cbn.
        apply lookup_app_l_Some, list_lookup_insert_eq.
        by eapply lookup_lt_Some.
    - rewrite add_built_in_prefixes_run_none in Hrun1.
      injection Hrun1 as <- <-. exists ∅. cbn.
      rewrite (left_id_L ∅ (∪)). by apply list_lookup_middle. }
  exists (m ∪ builtin). split; [done|].
  destruct (decide (m ∪ builtin = ∅)) as [Hempty|Hbound].
  - rewrite Hempty in Hd.
    rewrite add_built_in_prefixes_run_empty in Hrun2 by done.
    injection Hrun2 as <- <-. cbn. rewrite list_lookup_middle by done.
    apply map_positive_l in Hempty as Hm. subst m.
    by rewrite (left_id_L ∅ (∪)).
  - rewrite (add_built_in_prefixes_run_bound s1 r1 _ Hd Hbound) in Hrun2.
    injection Hrun2 as <- <-. cbn.
    rewrite <- (assoc (∪)), (idemp (∪) builtin).
    apply lookup_app_l_Some, list_lookup_insert_eq.
    by eapply lookup_lt_Some.
Qed.

End ContextFacts.

(** C2, as stated, fails: the user map of [initial_state] lacks the
    built-in prefixes [owl] and [rdf]; after the call the very object the
    caller passed binds them. *)
Lemma add_built_in_prefixes_to_prefix_map_mutates_argument :
  heap initial_state !! 0 = Some user_map ∧
  heap (add_built_in_prefixes_to_prefix_map sample_context (Some 0)
          initial_state).2 !! 0
    = Some (<["owl" := "http://www.w3.org/2002/07/owl#"]>
             (<["rdf" := "http://www.w3.org/1999/02/22-rdf-syntax-ns#"]>
                user_map)) ∧
  heap (add_built_in_prefixes_to_prefix_map sample_context (Some 0)
          initial_state).2 !! 0
    ≠ heap initial_state !! 0.
Proof.
  split; [reflexivity|]. split; [by vm_compute|].
  intros Heq. apply (f_equal (λ o, o ≫= (.!! "owl"))) in Heq.
  vm_compute in Heq. discriminate.
Qed.

(** ** Properties of [get_default_metadata] *)

Lemma from_context_prefix_uri pm key v :
  from_context pm key v =
    match prefix_uri v with Some u => <[key := u]> pm | None => pm end.
Proof.
  destruct v as [| | | | |l|o]; try done. cbn.
  destruct (o !! "@id"), (o !! "@prefix") as [p|]; try done.
  by destruct (truthy p).
Qed.

Lemma context_prefix_map_lookup contxt key :
  context_prefix_map contxt !! key = contxt !! key ≫= prefix_uri.
Proof.
  unfold context_prefix_map. revert key.
  apply (map_fold_weak_ind (λ r m, ∀ key, r !! key = m !! key ≫= prefix_uri)).
  - intros key. by rewrite !lookup_empty.
  - intros i x m r Hi IH key. rewrite from_context_prefix_uri.
    destruct (decide (i = key)) as [->|Hne].
    + rewrite lookup_insert_eq. cbn.
      destruct (prefix_uri x); [by rewrite lookup_insert_eq|].
      by rewrite IH, Hi.
    + rewrite (lookup_insert_ne m) by done.
      destruct (prefix_uri x); rewrite ?lookup_insert_ne by done; apply IH.
Qed.

Lemma external_conflicts_insert_fresh pm key x items :
  key ∉ items.*1 →
  external_conflicts (<[key:=x]> pm) items = external_conflicts pm items.
Proof.
  induction items as [|[k v] items IH]; [done|].
  rewrite fmap_cons, not_elem_of_cons. intros [Hne Hk]. cbn in Hne.
  unfold external_conflicts in *. cbn.
  rewrite lookup_insert_ne by done. by rewrite IH.
Qed.

Lemma from_external_run pm key v s :
  from_external pm (key, v) s =
    (match literal v, pm !! key with
     | Some x, None => <[key := x]> pm
     | _, _ => pm
     end,
     State (heap s) (log s ++ external_conflicts pm [(key, v)])).
Proof.
  unfold external_conflicts. cbn [omap list_omap].
  destruct s as [h lg].
  destruct v as [| | | |u| |]; cbn [from_external literal heap log];
    try (unfold mret, M_ret; by rewrite app_nil_r).
  destruct (pm !! key) as [present|];
    [|unfold mret, M_ret; by rewrite app_nil_r].
  destruct (negb (json_eq_str present u)).
  - reflexivity.
  - unfold mret, M_ret. by rewrite app_nil_r.
Qed.

Lemma foldM_from_external items : ∀ pm s,
  NoDup items.*1 →
  foldM from_external pm items s =
    (pm ∪ list_to_map (literals items),
     State (heap s) (log s ++ external_conflicts pm items)).
Proof.
  induction items as [|[key v] items IH]; intros pm s Hnd.
  - cbn. unfold mret, M_ret. destruct s; cbn.
    by rewrite (right_id_L ∅ (∪)), app_nil_r.
  - rewrite fmap_cons, NoDup_cons in Hnd. destruct Hnd as [Hk Hnd].
    cbn in Hk. cbn [foldM]. unfold mbind at 1, M_bind at 1.
    rewrite from_external_run, IH by done. cbn [heap log].
    rewrite <- app_assoc.
    replace (external_conflicts pm ((key, v) :: items))
      with (external_conflicts pm [(key, v)] ++ external_conflicts pm items)%list
      by (symmetry; apply (omap_app _ [(key, v)] items)).
    unfold literals at 2; cbn [omap list_omap fst snd]; fold (literals items).
    destruct (literal v) as [x|]; [|done].
    cbn [fmap option_fmap option_map].
    rewrite list_to_map_cons.
    destruct (pm !! key) as [present|] eqn:Hpm.
    + by rewrite (union_insert_bound _ _ _ present).
    + rewrite external_conflicts_insert_fresh by done.
      by rewrite <- insert_union_l, insert_union_r.
Qed.

Lemma lookup_literals (ext : gmap string json) key :
  (list_to_map (literals (map_to_list ext)) : gmap string json) !! key
    = ext !! key ≫= literal.
Proof.
  assert (Hsub : ∀ items : list (string * json),
            (literals items).*1 `sublist_of` items.*1).
  { induction items as [|[k v] items IH]; [done|].
    unfold literals in *. cbn. destruct (literal v); cbn.
    - by apply sublist_skip.
    - by apply sublist_cons. }
  assert (Hin : ∀ (items : list (string * json)) k x,
            (k, x) ∈ literals items ↔ (k, x) ∈ items ∧ literal x = Some x).
  { intros items k x. unfold literals. rewrite list_elem_of_omap. split.
    - intros [[k' v] [Hin Heq]]. cbn in Heq.
      destruct v; try done; cbn in Heq; by injection Heq as <- <-.
    - intros [Hin Hx]. exists (k, x). split; [done|]. cbn. by rewrite Hx. }
  apply option_eq. intros x.
  rewrite <- elem_of_list_to_map.
  - rewrite Hin, elem_of_map_to_list.
    destruct (ext !! key) as [v|]; cbn; [|naive_solver].
    split; [intros [[= ->] Hx]; done|].
    intros Hv. assert (v = x) as -> by (destruct v; naive_solver). done.
  - eapply sublist_NoDup; [|apply Hsub].
    apply NoDup_fst_map_to_list.
Qed.

Lemma get_default_metadata_run contxt ext s :
  get_default_metadata contxt ext s =
    (mkMetadata
       (context_prefix_map contxt ∪ list_to_map (literals (map_to_list ext)))
       ∅,
     State (heap s)
       (log s ++ external_conflicts (context_prefix_map contxt)
                   (map_to_list ext))).
Proof.
  unfold get_default_metadata, mbind, M_bind.
  by rewrite foldM_from_external by apply NoDup_fst_map_to_list.
Qed.

Lemma json_eq_str_false v s : json_eq_str v s = false ↔ v ≠ JStr s.
Proof.
  destruct v; cbn; try (split; [discriminate|done]).
  rewrite bool_decide_eq_false. naive_solver.
Qed.

Lemma elem_of_external_conflicts pm items r :
  r ∈ external_conflicts pm items ↔
  ∃ key present v, (key, JStr v) ∈ items ∧ pm !! key = Some present ∧
                   present ≠ JStr v ∧ r = AlreadyInPrefixMap key present v.
Proof.
  unfold external_conflicts. rewrite list_elem_of_omap. split.
  - intros [[key x] [Hin Hr]]. destruct x as [| | | |v| |]; try done.
    destruct (pm !! key) as [present|] eqn:Hk; [|done].
    destruct (json_eq_str present v) eqn:Heq; [done|].
    apply json_eq_str_false in Heq. injection Hr as <-. eauto 8.
  - intros (key & present & v & Hin & Hk & Hne & ->). exists (key, JStr v).
    split; [done|]. rewrite Hk.
    apply json_eq_str_false in Hne. by rewrite Hne.
Qed.

(** C6: a key for which the built-in context declares a prefix keeps the
    value derived from the built-in context; when the external context
    holds another literal for it, a warning is logged; the external
    context binds only the keys the built-in context left unbound. *)
Theorem get_default_metadata_built_in_wins contxt ext s :
  let r := (get_default_metadata contxt ext s).1 in
  let s' := (get_default_metadata contxt ext s).2 in
  (∀ key u, contxt !! key ≫= prefix_uri = Some u →
     prefix_map r !! key = Some u) ∧
  (∀ key u v, contxt !! key ≫= prefix_uri = Some u →
     ext !! key = Some (JStr v) → u ≠ JStr v →
     AlreadyInPrefixMap key u v ∈ log s') ∧
  (∀ key, contxt !! key ≫= prefix_uri = None →
     prefix_map r !! key = ext !! key ≫= literal).
Proof.
  rewrite get_default_metadata_run. cbn. split; [|split].
  - intros key u Hu. apply lookup_union_Some_l.
    by rewrite context_prefix_map_lookup.
  - intros key u v Hu Hext Hne. apply elem_of_app. right.
    apply elem_of_external_conflicts. exists key, u, v.
    by rewrite elem_of_map_to_list, context_prefix_map_lookup.
  - intros key Hnone. rewrite lookup_union_r
      by (by rewrite context_prefix_map_lookup).
    apply lookup_literals.
Qed.

(** The theorem on [sample_context] and [sample_external_context]: [skos]
    is declared by both, with different URIs; [wikidata] only by the
    external context. *)
Lemma get_default_metadata_built_in_wins_witness :
  prefix_map (get_default_metadata sample_context sample_external_context
                initial_state).1 !! "skos"
    = Some (JStr "http://www.w3.org/2004/02/skos/core#") ∧
  AlreadyInPrefixMap "skos" (JStr "http://www.w3.org/2004/02/skos/core#")
      "http://example.org/skos#"
    ∈ log (get_default_metadata sample_context sample_external_context
             initial_state).2 ∧
  prefix_map (get_default_metadata sample_context sample_external_context
                initial_state).1 !! "wikidata"
    = Some (JStr "http://www.wikidata.org/entity/").
Proof.
  destruct (get_default_metadata_built_in_wins sample_context
              sample_external_context initial_state) as (Hkeep & Hwarn & Hfill).
  split; [|split].
  - apply Hkeep. reflexivity.
  - apply Hwarn; [reflexivity|reflexivity|discriminate].
  - apply (Hfill "wikidata"). reflexivity.
Defined.

(** C10: the [metadata] of the value [get_default_metadata] returns is the
    empty mapping, whatever the two contexts hold. *)
Theorem get_default_metadata_metadata_empty contxt ext s :
  metadata (get_default_metadata contxt ext s).1 = ∅.
Proof. by rewrite get_default_metadata_run. Qed.

(** C9: the keys of the map [get_built_in_prefix_map] returns are among the
    five reserved names; a key whose entry in the context is a JSON object
    is not bound in it, so the map need not bind all five: in
    [sample_context] the entry of [sssom] is an object, and the map does
    not bind [sssom]. *)
Theorem get_built_in_prefix_map_keys :
  (∀ contxt k, k ∈ dom (get_built_in_prefix_map contxt) →
     k ∈ SSSOM_BUILT_IN_PREFIXES) ∧
  (∀ contxt k o, contxt !! k = Some (JObj o) →
     get_built_in_prefix_map contxt !! k = None) ∧
  (is_Some (sample_context !! "sssom") ∧
   get_built_in_prefix_map sample_context !! "sssom" = None).
Proof.
  split; [|split; [|split]].
  - intros contxt k [s Hs]%elem_of_dom.
    by apply get_built_in_prefix_map_lookup in Hs as [? _].
  - intros contxt k o Hk.
    destruct (get_built_in_prefix_map contxt !! k) as [s|] eqn:Hs; [|done].
    apply get_built_in_prefix_map_lookup in Hs as [_ Hs]. congruence.
  - eexists. vm_compute. reflexivity.
  - by vm_compute.
Qed.

(** The theorem on [sample_context]. *)
Lemma get_built_in_prefix_map_keys_witness :
  "skos" ∈ SSSOM_BUILT_IN_PREFIXES ∧
  get_built_in_prefix_map sample_context !! "sssom" = None.
Proof.
  destruct get_built_in_prefix_map_keys as (Hkeys & Hobj & _). split.
  - apply (Hkeys sample_context). apply elem_of_dom.
    exists "http://www.w3.org/2004/02/skos/core#". by vm_compute.
  - eapply Hobj. by vm_compute.
Defined.

Lemma user_map_bound : user_map ≠ ∅.
Proof. apply insert_non_empty. Qed.

(** The calls of the theorems above, on [sample_context] and the user map
    of [initial_state]. *)
Lemma add_built_in_prefixes_to_prefix_map_spec_witness :
  ∃ m', heap (add_built_in_prefixes_to_prefix_map sample_context (Some 0)
               initial_state).2 !! 0 = Some m' ∧
    m' !! "owl" = Some "http://www.w3.org/2002/07/owl#" ∧
    m' !! "skos" = Some "http://example.org/skos#" ∧
    BuiltInPrefixDiffers "skos" "http://example.org/skos#"
        "http://www.w3.org/2004/02/skos/core#"
      ∈ log (add_built_in_prefixes_to_prefix_map sample_context (Some 0)
               initial_state).2 ∧
    m' !! "a" = Some "http://example.org/a/".
Proof.
  destruct (add_built_in_prefixes_to_prefix_map_spec sample_context
              initial_state) as [Hbound _].
  destruct (Hbound 0 user_map 0
              (add_built_in_prefixes_to_prefix_map sample_context (Some 0)
                 initial_state).2)
    as (m' & Hm' & Hadd & Hkeep & Huser).
  - reflexivity.
  - apply user_map_bound.
  - by vm_compute.
  - exists m'. split; [exact Hm'|]. split; [|split; [|split]].
    + by apply Hadd.
    + eapply Hkeep; [by vm_compute|by vm_compute|discriminate].
    + eapply (Hkeep "skos"); [by vm_compute|by vm_compute|discriminate].
    + by apply Huser.
Defined.

(** The same call, for the caller's object. *)
Lemma add_built_in_prefixes_to_prefix_map_updates_argument_witness :
  ∃ m',
    heap (add_built_in_prefixes_to_prefix_map sample_context (Some 0)
            initial_state).2 !! 0 = Some m' ∧
    (m' = user_map ↔
       user_map = ∅ ∨
       dom (get_built_in_prefix_map sample_context) ⊆ dom user_map) ∧
    (user_map ≠ ∅ →
       (add_built_in_prefixes_to_prefix_map sample_context (Some 0)
          initial_state).1 = 0 ∧
       m' = user_map ∪ get_built_in_prefix_map sample_context) ∧
    (∀ k u, user_map !! k = Some u → m' !! k = Some u) ∧
    (∀ l', l' ≠ 0 → l' < length (heap initial_state) →
       heap (add_built_in_prefixes_to_prefix_map sample_context (Some 0)
               initial_state).2 !! l' = heap initial_state !! l').
Proof.
  apply (add_built_in_prefixes_to_prefix_map_updates_argument
           sample_context initial_state 0 user_map).
  - reflexivity.
  - apply surjective_pairing.
Defined.

(** Two calls in a row on the user map of [initial_state]. *)
Lemma add_built_in_prefixes_to_prefix_map_idempotent_witness :
  ∃ d,
    heap (add_built_in_prefixes_to_prefix_map sample_context (Some 0)
            initial_state).2
      !! (add_built_in_prefixes_to_prefix_map sample_context (Some 0)
            initial_state).1 = Some d ∧
    heap (add_built_in_prefixes_to_prefix_map sample_context
            (Some (add_built_in_prefixes_to_prefix_map sample_context
                     (Some 0) initial_state).1)
            (add_built_in_prefixes_to_prefix_map sample_context (Some 0)
               initial_state).2).2
      !! (add_built_in_prefixes_to_prefix_map sample_context
            (Some (add_built_in_prefixes_to_prefix_map sample_context
                     (Some 0) initial_state).1)
            (add_built_in_prefixes_to_prefix_map sample_context (Some 0)
               initial_state).2).1 = Some d.
Proof.
  apply (add_built_in_prefixes_to_prefix_map_idempotent sample_context
           (Some 0) initial_state).
  - intros l [= <-]. cbn. lia.
  - apply surjective_pairing.
  - apply surjective_pairing.
Defined.

(** ** [EntityPair] *)

Section EntityPairFacts.

Context {Entity : Type} `{EqDecision Entity}.
Variable id : Entity → string.
Variable hash : string * string → Z.

(** The hash is that of the ordered pair of identifiers, so it does not
    depend on which entity is the subject. *)
Lemma EntityPair_hash_swap (a b : Entity) :
  EntityPair_hash id hash (mkEntityPair a b) =
  EntityPair_hash id hash (mkEntityPair b a).
Proof.
  unfold EntityPair_hash. cbn.
  destruct (String.leb (id a) (id b)) eqn:Hab,
           (String.leb (id b) (id a)) eqn:Hba; try done.
  - by rewrite (String.leb_antisym _ _ Hab Hba).
  - destruct (String.leb_total (id a) (id b)); congruence.
Qed.

(** The generated equality compares field by field. *)
Lemma EntityPair_eq_swap (a b : Entity) :
  EntityPair_eq (mkEntityPair a b) (mkEntityPair b a) = true ↔ a = b.
Proof.
  unfold EntityPair_eq. cbn. rewrite bool_decide_eq_true. naive_solver.
Qed.

End EntityPairFacts.

(** C3, on the code: the pairs built from [(A, B)] and [(B, A)] have the
    same hash, whatever [hash] is, and the generated [__eq__] says they
    differ. *)
Theorem EntityPair_swapped_hash_equal_not_eq :
  (∀ hash,
     EntityPair_hash entity_id hash
       (mkEntityPair (mkIdEntity "A") (mkIdEntity "B")) =
     EntityPair_hash entity_id hash
       (mkEntityPair (mkIdEntity "B") (mkIdEntity "A"))) ∧
  EntityPair_eq (mkEntityPair (mkIdEntity "A") (mkIdEntity "B"))
                (mkEntityPair (mkIdEntity "B") (mkIdEntity "A")) = false.
Proof.
  split; [intros hash; apply EntityPair_hash_swap|].
  apply bool_decide_eq_false. discriminate.
Qed.

(** * Further properties of [sssom/context.py] *)

(** X1: [get_built_in_prefix_map] binds [k] to [s] exactly when [k] is one
    of the five reserved names and the entry of [k] in the context is the
    literal string [s]. *)
Theorem get_built_in_prefix_map_binds contxt k s :
  get_built_in_prefix_map contxt !! k = Some s ↔
  k ∈ SSSOM_BUILT_IN_PREFIXES ∧ contxt !! k = Some (JStr s).
Proof. apply get_built_in_prefix_map_lookup. Qed.

Section ReconcileFacts.

Variable contxt : gmap string json.

Lemma conflicts_NoDup m items :
  NoDup items.*1 → NoDup (conflicts m items).
Proof.
  induction items as [|[k v] items IH]; [constructor|].
  rewrite fmap_cons, NoDup_cons. intros [Hk Hnd]. cbn in Hk.
  unfold conflicts. cbn [omap list_omap]. fold (conflicts m items).
  destruct (m !! k) as [u|]; [|by apply IH].
  case_bool_decide; [|by apply IH].
  apply NoDup_cons. split; [|by apply IH].
  intros (k' & u' & v' & Hin & _ & _ & [= <- _ _])%elem_of_conflicts.
  apply Hk. apply list_elem_of_fmap. by exists (k, v').
Qed.


(** X2: whatever the argument, the returned map binds every key of the
    built-in map, and every binding it holds is a binding of the user map
    or of the built-in map. *)
Theorem add_built_in_prefixes_to_prefix_map_binds_built_in arg s r s' :
  (∀ l, arg = Some l → l < length (heap s)) →
  add_built_in_prefixes_to_prefix_map contxt arg s = (r, s') →
  ∃ m', heap s' !! r = Some m' ∧
    dom (get_built_in_prefix_map contxt) ⊆ dom m' ∧
    (∀ k x, m' !! k = Some x →
       get_built_in_prefix_map contxt !! k = Some x ∨
       ∃ l m, arg = Some l ∧ heap s !! l = Some m ∧ m !! k = Some x).
Proof.
  intros Harg Hrun. destruct arg as [l|].
  - destruct (lookup_lt_is_Some_2 (heap s) l) as [m Hl]; [by apply Harg|].
    destruct (decide (m = ∅)) as [->|Hm].
    + rewrite add_built_in_prefixes_run_empty in Hrun by done.
      injection Hrun as <- <-. eexists. cbn.
      split; [by apply list_lookup_middle|]. split; [done|]. by left.
    + rewrite (add_built_in_prefixes_run_bound contxt s l m) in Hrun by done.
      injection Hrun as <- <-. exists (m ∪ get_built_in_prefix_map contxt).
      cbn. split; [|split].
      * apply lookup_app_l_Some, list_lookup_insert_eq.
        by eapply lookup_lt_Some.
      * rewrite dom_union_L. set_solver.
      * intros k x [Hx|[_ Hx]]%lookup_union_Some_raw; [right|by left].
        by exists l, m.
  - rewrite add_built_in_prefixes_run_none in Hrun.
    injection Hrun as <- <-. eexists. cbn.
    split; [by apply list_lookup_middle|]. split; [done|]. by left.
Qed.

(** X3: on a user map with a binding the call appends to the log, after
    what was there, exactly one [BuiltInPrefixDiffers k u v] for every
    binding [(k, v)] of the built-in map that the user map binds to
    another URI [u], and nothing else. *)
Theorem add_built_in_prefixes_to_prefix_map_log s l m r s' :
  heap s !! l = Some m → m ≠ ∅ →
  add_built_in_prefixes_to_prefix_map contxt (Some l) s = (r, s') →
  ∃ lg, log s' = (log s ++ lg)%list ∧ NoDup lg ∧
    ∀ w, w ∈ lg ↔
      ∃ k u v, get_built_in_prefix_map contxt !! k = Some v ∧
               m !! k = Some u ∧ u ≠ v ∧ w = BuiltInPrefixDiffers k u v.
Proof.
  intros Hl Hm.
  rewrite (add_built_in_prefixes_run_bound contxt s l m) by done.
  intros [= <- <-]. eexists. cbn. split; [reflexivity|]. split.
  - apply conflicts_NoDup, NoDup_fst_map_to_list.
  - intros w. rewrite elem_of_conflicts.
    setoid_rewrite elem_of_map_to_list. naive_solver.
Qed.

(** X4: with no map, or with an empty one, the call logs nothing and
    leaves every object of the caller as it was: the heap is the old one
    extended by the returned built-in map. *)
Theorem add_built_in_prefixes_to_prefix_map_fresh arg s r s' :
  arg = None ∨ (∃ l, arg = Some l ∧ heap s !! l = Some ∅) →
  add_built_in_prefixes_to_prefix_map contxt arg s = (r, s') →
  log s' = log s ∧
  heap s' = (heap s ++ [get_built_in_prefix_map contxt])%list ∧
  r = length (heap s).
Proof.
  intros Harg Hrun.
  assert ((r, s') = (length (heap s),
            State (heap s ++ [get_built_in_prefix_map contxt]) (log s)))
    as [= -> ->]; [|done].
  rewrite <- Hrun. destruct Harg as [->|(l & -> & Hl)].
  - apply add_built_in_prefixes_run_none.
  - by apply add_built_in_prefixes_run_empty.
Qed.


End ReconcileFacts.

Lemma add_built_in_prefixes_to_prefix_map_binds_built_in_witness :
  ∃ m',
    heap (add_built_in_prefixes_to_prefix_map sample_context (Some 0)
            initial_state).2
      !! (add_built_in_prefixes_to_prefix_map sample_context (Some 0)
            initial_state).1 = Some m' ∧
    dom (get_built_in_prefix_map sample_context) ⊆ dom m' ∧
    (∀ k x, m' !! k = Some x →
       get_built_in_prefix_map sample_context !! k = Some x ∨
       ∃ l m, Some 0 = Some l ∧ heap initial_state !! l = Some m ∧
              m !! k = Some x).
Proof.
  apply (add_built_in_prefixes_to_prefix_map_binds_built_in sample_context
           (Some 0) initial_state).
  - intros l [= <-]. cbn. lia.
  - apply surjective_pairing.
Defined.

Lemma add_built_in_prefixes_to_prefix_map_log_witness :
  ∃ lg,
    log (add_built_in_prefixes_to_prefix_map sample_context (Some 0)
           initial_state).2 = (log initial_state ++ lg)%list ∧
    NoDup lg ∧
    ∀ w, w ∈ lg ↔
      ∃ k u v, get_built_in_prefix_map sample_context !! k = Some v ∧
               user_map !! k = Some u ∧ u ≠ v ∧
               w = BuiltInPrefixDiffers k u v.
Proof.
  apply (add_built_in_prefixes_to_prefix_map_log sample_context
           initial_state 0 user_map
           (add_built_in_prefixes_to_prefix_map sample_context (Some 0)
              initial_state).1).
  - reflexivity.
  - apply insert_non_empty.
  - apply surjective_pairing.
Defined.

Lemma add_built_in_prefixes_to_prefix_map_fresh_witness :
  log (add_built_in_prefixes_to_prefix_map sample_context None
         initial_state).2 = log initial_state ∧
  heap (add_built_in_prefixes_to_prefix_map sample_context None
          initial_state).2
    = (heap initial_state ++ [get_built_in_prefix_map sample_context])%list ∧
  (add_built_in_prefixes_to_prefix_map sample_context None
     initial_state).1 = length (heap initial_state).
Proof.
  apply (add_built_in_prefixes_to_prefix_map_fresh sample_context None
           initial_state
           (add_built_in_prefixes_to_prefix_map sample_context None
              initial_state).1
           (add_built_in_prefixes_to_prefix_map sample_context None
              initial_state).2).
  - by left.
  - apply surjective_pairing.
Defined.


(** ** [get_default_metadata] *)

Lemma external_conflicts_NoDup pm items :
  NoDup items.*1 → NoDup (external_conflicts pm items).
Proof.
  induction items as [|[k x] items IH]; [constructor|].
  rewrite fmap_cons, NoDup_cons. intros [Hk Hnd]. cbn in Hk.
  unfold external_conflicts. cbn [omap list_omap].
  fold (external_conflicts pm items).
  destruct x as [| | | |v| |]; try (by apply IH).
  destruct (pm !! k) as [present|]; [|by apply IH].
  destruct (negb (json_eq_str present v)); [|by apply IH].
  apply NoDup_cons. split; [|by apply IH].
  intros (k' & u' & v' & Hin & _ & _ & [= <- _ _])%elem_of_external_conflicts.
  apply Hk. apply list_elem_of_fmap. by exists (k, JStr v').
Qed.

(** X6: the default prefix map holds every binding of the built-in prefix
    map, as a string, whatever the external context says about the key. *)
Theorem get_default_metadata_includes_built_in contxt ext s k u :
  get_built_in_prefix_map contxt !! k = Some u →
  prefix_map (get_default_metadata contxt ext s).1 !! k = Some (JStr u).
Proof.
  intros [_ Hk]%get_built_in_prefix_map_lookup.
  rewrite get_default_metadata_run. cbn. apply lookup_union_Some_l.
  by rewrite context_prefix_map_lookup, Hk.
Qed.

Lemma get_default_metadata_includes_built_in_witness :
  prefix_map (get_default_metadata sample_context sample_external_context
                initial_state).1 !! "skos"
    = Some (JStr "http://www.w3.org/2004/02/skos/core#").
Proof.
  apply get_default_metadata_includes_built_in. by vm_compute.
Defined.

(** X7: [get_default_metadata] changes no object; it appends to the log,
    after what was there, exactly one [AlreadyInPrefixMap key u v] for
    every literal entry [v] of the external context whose key the returned
    prefix map binds to a value [u] other than [v]. *)
Theorem get_default_metadata_log contxt ext s :
  let r := (get_default_metadata contxt ext s).1 in
  let s' := (get_default_metadata contxt ext s).2 in
  heap s' = heap s ∧
  ∃ lg, log s' = (log s ++ lg)%list ∧ NoDup lg ∧
    ∀ w, w ∈ lg ↔
      ∃ key u v, ext !! key = Some (JStr v) ∧
                 prefix_map r !! key = Some u ∧ u ≠ JStr v ∧
                 w = AlreadyInPrefixMap key u v.
Proof.
  rewrite get_default_metadata_run. cbn. split; [done|].
  eexists. split; [reflexivity|]. split.
  - apply external_conflicts_NoDup, NoDup_fst_map_to_list.
  - intros w. rewrite elem_of_external_conflicts.
    setoid_rewrite elem_of_map_to_list. split.
    + intros (key & u & v & Hext & Hu & Hne & ->). exists key, u, v.
      split; [done|]. split; [by apply lookup_union_Some_l|done].
    + intros (key & u & v & Hext & Hu & Hne & ->). exists key, u, v.
      split; [done|]. split; [|done].
      apply lookup_union_Some_raw in Hu as [Hu|[_ Hu]]; [done|].
      rewrite lookup_literals, Hext in Hu. cbn in Hu. congruence.
Qed.

(** X8: when every ["@id"] of an object entry of the built-in context is a
    string, every value of the default prefix map is a string. *)
Theorem get_default_metadata_values_are_strings contxt ext s :
  (∀ key o i, contxt !! key = Some (JObj o) → o !! "@id" = Some i →
     ∃ u, i = JStr u) →
  ∀ key x, prefix_map (get_default_metadata contxt ext s).1 !! key = Some x →
    ∃ u, x = JStr u.
Proof.
  intros Hid key x. rewrite get_default_metadata_run. cbn.
  intros [Hx|[_ Hx]]%lookup_union_Some_raw.
  - rewrite context_prefix_map_lookup in Hx.
    destruct (contxt !! key) as [v|] eqn:Hv; [|done]. cbn in Hx.
    destruct v as [| | | |u| |o]; try done; [naive_solver|].
    cbn in Hx. destruct (o !! "@id") as [i|] eqn:Hi; [|done].
    destruct (o !! "@prefix") as [p|]; [|done].
    destruct (truthy p); [|done]. injection Hx as <-. by eapply Hid.
  - rewrite lookup_literals in Hx.
    destruct (ext !! key) as [v|]; [|done]. cbn in Hx.
    destruct v; try done. naive_solver.
Qed.

Lemma get_default_metadata_values_are_strings_witness :
  prefix_map (get_default_metadata sample_context sample_external_context
                initial_state).1 !! "sssom"
    = Some (JStr "https://w3id.org/sssom/") ∧
  ∃ u, JStr "https://w3id.org/sssom/" = JStr u.
Proof.
  assert (Hsssom :
    prefix_map (get_default_metadata sample_context sample_external_context
                  initial_state).1 !! "sssom"
      = Some (JStr "https://w3id.org/sssom/")) by (by vm_compute).
  split; [exact Hsssom|].
  apply (get_default_metadata_values_are_strings sample_context
           sample_external_context initial_state) with (key := "sssom");
    [|exact Hsssom].
  clear Hsssom. intros key o i Hkey Hi.
  assert (Hin : (key, JObj o) ∈ map_to_list sample_context)
    by (by apply elem_of_map_to_list).
  vm_compute in Hin.
  repeat (apply elem_of_cons in Hin as [Hin|Hin];
          [simplify_eq; vm_compute in Hi; simplify_eq; eauto|]).
  by apply elem_of_nil in Hin.
Defined.

(** X9: a key whose entry in the built-in context is an object without a
    true ["@prefix"] is not taken from it: a literal of the external
    context for that key is what the default prefix map binds it to, and no
    warning is logged for the key. *)
Theorem get_default_metadata_overrides_silently contxt ext s key o v :
  contxt !! key = Some (JObj o) →
  (∀ p, o !! "@prefix" = Some p → truthy p = false) →
  ext !! key = Some (JStr v) →
  prefix_map (get_default_metadata contxt ext s).1 !! key = Some (JStr v) ∧
  ∃ lg, log (get_default_metadata contxt ext s).2 = (log s ++ lg)%list ∧
        ∀ u w, AlreadyInPrefixMap key u w ∉ lg.
Proof.
  intros Hkey Hprefix Hext.
  assert (Hnone : context_prefix_map contxt !! key = None).
  { rewrite context_prefix_map_lookup, Hkey. cbn.
    destruct (o !! "@id"); [|done].
    destruct (o !! "@prefix") as [p|] eqn:Hp; [|done].
    by rewrite (Hprefix p). }
  rewrite get_default_metadata_run. cbn. split.
  - rewrite lookup_union_r by done. by rewrite lookup_literals, Hext.
  - eexists. split; [reflexivity|].
    intros u w (k' & u' & v' & _ & Hu & _ & [= <- <- _])%elem_of_external_conflicts.
    congruence.
Qed.

Lemma get_default_metadata_overrides_silently_witness :
  prefix_map (get_default_metadata sample_context sample_external_context
                initial_state).1 !! "subject_id"
    = Some (JStr "http://example.org/subject_id/") ∧
  ∃ lg, log (get_default_metadata sample_context sample_external_context
               initial_state).2 = (log initial_state ++ lg)%list ∧
        ∀ u w, AlreadyInPrefixMap "subject_id" u w ∉ lg.
Proof.
  apply (get_default_metadata_overrides_silently sample_context
           sample_external_context initial_state "subject_id"
           (list_to_map [ ("@type", JStr "@id") ])).
  - by vm_compute.
  - intros p Hp. vm_compute in Hp. discriminate.
  - by vm_compute.
Defined.

(** ** [EntityPair.__hash__] *)

Section EntityPairHash.

Context {Entity : Type}.
Variable id : Entity → string.
Variable hash : string * string → Z.

(** X10: the hash of a pair depends only on the two identifiers, not on
    which of them is the subject: pairs whose entities have the same
    identifiers, in the same or in the other order, have the same hash. *)
Theorem EntityPair_hash_unordered (a b a' b' : Entity) :
  (id a = id a' ∧ id b = id b') ∨ (id a = id b' ∧ id b = id a') →
  EntityPair_hash id hash (mkEntityPair a b) =
  EntityPair_hash id hash (mkEntityPair a' b').
Proof.
  intros [[Ha Hb]|[Ha Hb]].
  - unfold EntityPair_hash. cbn. by rewrite Ha, Hb.
  - rewrite (EntityPair_hash_swap id hash a' b').
    unfold EntityPair_hash. cbn. by rewrite Ha, Hb.
Qed.

End EntityPairHash.

Lemma EntityPair_hash_unordered_witness :
  EntityPair_hash entity_id (λ t, Z.of_nat (String.length t.1))
    (mkEntityPair (mkIdEntity "A") (mkIdEntity "BB")) =
  EntityPair_hash entity_id (λ t, Z.of_nat (String.length t.1))
    (mkEntityPair (mkIdEntity "BB") (mkIdEntity "A")).
Proof.
  apply EntityPair_hash_unordered. right. by split.
Defined.

(** * [MetaTSVConverter.convert] *)

Lemma schema_slots_schema_of st :
  schema_slots (schema_of st) = Some (cv_slots st).
Proof. reflexivity. Qed.

Lemma class_slots_mapping_set st :
  class_slots (schema_of st) "mapping set"
    = Some (JStr <$> cv_mapping_set_slots st).
Proof. reflexivity. Qed.

Lemma class_slots_mapping st :
  class_slots (schema_of st) "mapping" = Some (JStr <$> cv_mapping_slots st).
Proof. reflexivity. Qed.

Lemma class_slots_entity st :
  class_slots (schema_of st) "entity" = Some [JStr "id"].
Proof. reflexivity. Qed.

Lemma convert_row_skip st r :
  Element_ID r = "ID" → convert_row st r = st.
Proof. intros Hr. unfold convert_row. by rewrite bool_decide_eq_true_2. Qed.

Lemma foldl_convert_row_filter df : ∀ st,
  foldl convert_row st (filter is_element df) = foldl convert_row st df.
Proof.
  induction df as [|r df IH]; intros st; [done|].
  rewrite filter_cons. destruct (decide (is_element r)) as [Hr|Hr]; cbn.
  - apply IH.
  - rewrite IH. f_equal. symmetry. apply convert_row_skip.
    unfold is_element in Hr. by destruct (decide (Element_ID r = "ID")).
Qed.

(** X11: the rows whose [Element ID] is [ID] are skipped: the schema is
    that of the data frame without them. *)
Theorem convert_skips_ID_rows df :
  convert (filter is_element df) = convert df.
Proof. unfold convert. by rewrite foldl_convert_row_filter. Qed.

Lemma foldl_convert_row_class_slots df : ∀ st,
  cv_mapping_set_slots (foldl convert_row st df) =
    (cv_mapping_set_slots st ++
     (slot_id <$> filter (λ r, is_element r ∧ contains "G" (Scope r) = true)
                    df))%list ∧
  cv_mapping_slots (foldl convert_row st df) =
    (cv_mapping_slots st ++
     (slot_id <$> filter (λ r, is_element r ∧ contains "L" (Scope r) = true)
                    df))%list.
Proof.
  induction df as [|r df IH]; intros st.
  - cbn. by rewrite !app_nil_r.
  - cbn [foldl]. destruct (IH (convert_row st r)) as [-> ->].
    rewrite !filter_cons. unfold convert_row, is_element.
    case_bool_decide as Hid.
    + rewrite !decide_False by naive_solver. done.
    + cbn [cv_mapping_set_slots cv_mapping_slots].
      destruct (contains "G" (Scope r)), (contains "L" (Scope r));
        rewrite ?(decide_True (P := Element_ID r ≠ "ID" ∧ true = true))
          by done;
        rewrite ?(decide_False (P := Element_ID r ≠ "ID" ∧ false = true))
          by (intros [_ ?]; discriminate);
        rewrite ?fmap_cons, <- ?app_assoc; split; reflexivity.
Qed.

(** X12: the slots of the class [mapping set] are [mappings] followed by
    the stripped identifiers of the rows with [G] in their scope, those of
    the class [mapping] the stripped identifiers of the rows with [L] in
    their scope, in the order of the rows and with their repetitions. *)
Theorem convert_class_slots df :
  class_slots (convert df) "mapping set" =
    Some (JStr <$> "mappings" ::
            (slot_id <$> filter (λ r, is_element r ∧
                                      contains "G" (Scope r) = true) df)) ∧
  class_slots (convert df) "mapping" =
    Some (JStr <$>
            (slot_id <$> filter (λ r, is_element r ∧
                                      contains "L" (Scope r) = true) df)).
Proof.
  unfold convert. rewrite class_slots_mapping_set, class_slots_mapping.
  by destruct (foldl_convert_row_class_slots df initial_converter_state)
    as [-> ->].
Qed.

Lemma foldl_convert_row_slots df k : ∀ st,
  cv_slots (foldl convert_row st df) !! k =
    match last (filter (λ r, is_element r ∧ slot_id r = k) df) with
    | Some r => Some (JObj (slot_of r))
    | None => cv_slots st !! k
    end.
Proof.
  induction df as [|r df IH]; intros st; [done|].
  cbn [foldl]. rewrite IH, filter_cons. unfold convert_row, is_element.
  case_bool_decide as Hid.
  - by rewrite decide_False by naive_solver.
  - cbn [cv_slots]. destruct (decide (slot_id r = k)) as [Hk|Hk].
    + rewrite decide_True by done. rewrite last_cons.
      destruct (last _); [done|]. by rewrite Hk, lookup_insert_eq.
    + rewrite decide_False by naive_solver.
      by rewrite lookup_insert_ne.
Qed.

(** X13: a later row replaces the slot of an earlier row with the same
    stripped identifier: the slot of a key is the one built from the last
    row, not skipped, whose stripped identifier is the key; a key no row
    has keeps its initial slot, if it is [mappings] or [id], and has none
    otherwise. *)
Theorem convert_slot_last_row df k :
  ∃ slots, schema_slots (convert df) = Some slots ∧
    slots !! k =
      match last (filter (λ r, is_element r ∧ slot_id r = k) df) with
      | Some r => Some (JObj (slot_of r))
      | None => initial_slots !! k
      end.
Proof.
  unfold convert. rewrite schema_slots_schema_of. eexists.
  split; [reflexivity|]. apply foldl_convert_row_slots.
Qed.

Lemma slot_of_lookups r :
  slot_of r !! "description" = Some (Description r) ∧
  slot_of r !! "range" = Some (JStr (slot_range r)) ∧
  slot_of r !! "slot_uri" = JStr <$> slot_uri_of (slot_id r).
Proof.
  unfold slot_of.
  destruct (negb _), (json_eq_one _), (slot_uri_of _);
    cbn; repeat split; by simplify_map_eq.
Qed.

Lemma slot_range_values r : slot_range r ∈ ["double"; "entity"; "string"].
Proof.
  unfold slot_range. destruct (json_eq_str _ _); [by left|].
  destruct (_ || _); [right; by left|right; right; by left].
Qed.

(** X14: for every row that is not skipped the schema has a slot under the
    stripped identifier of the row; the slot has a description, its range
    is [double], [entity] or [string], and it has the [slot_uri] of the
    identifier exactly when the identifier is [subject_id], [object_id] or
    [predicate_id]. *)
Theorem convert_slots_well_formed df r :
  r ∈ df → is_element r →
  ∃ slots o x,
    schema_slots (convert df) = Some slots ∧
    slots !! slot_id r = Some (JObj o) ∧
    is_Some (o !! "description") ∧
    o !! "range" = Some (JStr x) ∧ x ∈ ["double"; "entity"; "string"] ∧
    o !! "slot_uri" = JStr <$> slot_uri_of (slot_id r).
Proof.
  intros Hin Hr.
  pose proof (schema_slots_schema_of
                (foldl convert_row initial_converter_state df)) as Hslots.
  pose proof (foldl_convert_row_slots df (slot_id r)
                initial_converter_state) as Hk.
  fold (convert df) in Hslots.
  set (slots := cv_slots (foldl convert_row initial_converter_state df)) in *.
  assert (Hlast : is_Some (last (filter (λ r', is_element r' ∧
                                  slot_id r' = slot_id r) df))).
  { apply last_is_Some. intros Hnil.
    assert (r ∈ filter (λ r', is_element r' ∧ slot_id r' = slot_id r) df)
      as Hf by (by apply list_elem_of_filter).
    rewrite Hnil in Hf. by apply elem_of_nil in Hf. }
  destruct Hlast as [r' Hr']. rewrite Hr' in Hk.
  assert (Hid : slot_id r' = slot_id r).
  { apply last_Some in Hr' as [l Hl].
    assert (r' ∈ filter (λ r', is_element r' ∧ slot_id r' = slot_id r) df)
      as Hf by (rewrite Hl; apply elem_of_app; right; by left).
    by apply list_elem_of_filter in Hf as [[_ ?] _]. }
  destruct (slot_of_lookups r') as (Hd & Hrange & Huri).
  exists slots, (slot_of r'), (slot_range r').
  rewrite Hid in Huri.
  split; [done|]. split; [done|]. split; [by rewrite Hd|].
  split; [done|]. split; [apply slot_range_values|done].
Qed.

Lemma foldl_convert_row_defined df : ∀ st,
  (∀ x, x ∈ cv_mapping_set_slots st ∨ x ∈ cv_mapping_slots st ∨ x = "id" →
        is_Some (cv_slots st !! x)) →
  ∀ x, x ∈ cv_mapping_set_slots (foldl convert_row st df) ∨
       x ∈ cv_mapping_slots (foldl convert_row st df) ∨ x = "id" →
       is_Some (cv_slots (foldl convert_row st df) !! x).
Proof.
  induction df as [|r df IH]; intros st Hst; [done|].
  cbn [foldl]. apply IH. intros x. unfold convert_row.
  case_bool_decide; [apply Hst|]. cbn [cv_slots cv_mapping_set_slots cv_mapping_slots].
  intros Hx. destruct (decide (slot_id r = x)) as [->|Hne].
  - rewrite lookup_insert_eq. by eexists.
  - rewrite lookup_insert_ne by done. apply Hst.
    destruct (contains "G" (Scope r)), (contains "L" (Scope r));
      rewrite ?elem_of_app, ?list_elem_of_singleton in Hx; naive_solver.
Qed.

(** X15: every slot that a class of the schema lists is a slot of the
    schema, whatever the rows are. *)
Theorem convert_class_slots_defined df cls l x :
  class_slots (convert df) cls = Some l → JStr x ∈ l →
  ∃ slots, schema_slots (convert df) = Some slots ∧ is_Some (slots !! x).
Proof.
  unfold convert. set (st := foldl convert_row initial_converter_state df).
  intros Hcls Hx. rewrite schema_slots_schema_of. eexists.
  split; [reflexivity|].
  assert (Hinit : ∀ y, y ∈ cv_mapping_set_slots initial_converter_state ∨
                       y ∈ cv_mapping_slots initial_converter_state ∨
                       y = "id" →
                       is_Some (cv_slots initial_converter_state !! y)).
  { intros y [Hy|[Hy|Hy]].
    - apply list_elem_of_singleton in Hy. subst y. by eexists.
    - by apply elem_of_nil in Hy.
    - subst y. by eexists. }
  apply (foldl_convert_row_defined df _ Hinit).
  assert (Hinj : ∀ (ys : list string), JStr x ∈ JStr <$> ys → x ∈ ys).
  { intros ys (y & [= ->] & Hy)%list_elem_of_fmap. done. }
  destruct (decide (cls = "mapping set")) as [->|Hms].
  { rewrite class_slots_mapping_set in Hcls. injection Hcls as <-.
    left. by apply Hinj. }
  destruct (decide (cls = "mapping")) as [->|Hm].
  { rewrite class_slots_mapping in Hcls. injection Hcls as <-.
    right; left. by apply Hinj. }
  destruct (decide (cls = "entity")) as [->|He].
  { rewrite class_slots_entity in Hcls. injection Hcls as <-.
    apply list_elem_of_singleton in Hx as [= ->]. by right; right. }
  exfalso. revert Hcls. unfold class_slots, schema_of.
  rewrite (lookup_insert_ne _ "id" "classes") by done.
  rewrite (lookup_insert_ne _ "description" "classes") by done.
  rewrite (lookup_insert_ne _ "imports" "classes") by done.
  rewrite (lookup_insert_ne _ "prefixes" "classes") by done.
  rewrite (lookup_insert_ne _ "see_also" "classes") by done.
  rewrite (lookup_insert_ne _ "default_curi_maps" "classes") by done.
  rewrite (lookup_insert_ne _ "default_prefix" "classes") by done.
  rewrite (lookup_insert_ne _ "slots" "classes") by done.
  rewrite lookup_insert_eq.
  rewrite !lookup_insert_ne by done. by rewrite lookup_empty.
Qed.

Lemma convert_slots_well_formed_witness :
  ∃ slots o x,
    schema_slots (convert metadata_rows) = Some slots ∧
    slots !! slot_id (mkTsvRow "sssom:subject_id" (JStr "rdfs:Resource")
                        (JStr "The ID of the subject of the mapping")
                        (JStr "owl:annotatedSource") (JInt 1) "L")
      = Some (JObj o) ∧
    is_Some (o !! "description") ∧
    o !! "range" = Some (JStr x) ∧ x ∈ ["double"; "entity"; "string"] ∧
    o !! "slot_uri"
      = JStr <$> slot_uri_of
          (slot_id (mkTsvRow "sssom:subject_id" (JStr "rdfs:Resource")
                      (JStr "The ID of the subject of the mapping")
                      (JStr "owl:annotatedSource") (JInt 1) "L")).
Proof.
  apply (convert_slots_well_formed metadata_rows).
  - right. by left.
  - discriminate.
Defined.

Lemma convert_class_slots_defined_witness :
  ∃ slots, schema_slots (convert metadata_rows) = Some slots ∧
           is_Some (slots !! "confidence").
Proof.
  apply (convert_class_slots_defined metadata_rows "mapping"
           (JStr <$> ["subject_id"; "confidence"; "subject_id"])).
  - by vm_compute.
  - right. by left.
Defined.

(** *** [str.replace] on the identifiers *)

Lemma replace_from_no_occurrence old new s :
  contains old s = false → replace_from old new 0 s = s.
Proof.
  induction s as [|c s IH]; [done|].
  cbn [contains replace_from]. intros [Hp Hs]%orb_false_iff.
  rewrite Hp. by rewrite IH.
Qed.

Lemma prefix_append old s : String.prefix old (old +:+ s) = true.
Proof.
  induction old as [|c old IH]; [by destruct s|].
  change (String c old +:+ s) with (String c (old +:+ s)). simpl.
  destruct (ascii_dec c c); [apply IH|done].
Qed.

Lemma replace_from_skip old new p s :
  replace_from old new (String.length p) (p +:+ s) = replace_from old new 0 s.
Proof. induction p as [|c p IH]; [done|]. cbn. apply IH. Qed.

(** The name of the slot of a row whose [Element ID] is [name], with or
    without the prefix [sssom:]. *)
Lemma slot_id_of_prefixed r name :
  contains "sssom:" name = false →
  Element_ID r = "sssom:" +:+ name ∨ Element_ID r = name →
  slot_id r = name.
Proof.
  intros Hname [Hr|Hr]; unfold slot_id, str_replace; rewrite Hr.
  - rewrite bool_decide_eq_false_2 by done.
    change ("sssom:" +:+ name) with (String "s" ("ssom:" +:+ name)).
    cbn [replace_from].
    rewrite (prefix_append "sssom:" name : String.prefix "sssom:"
               (String "s" ("ssom:" +:+ name)) = true).
    rewrite (replace_from_skip "sssom:" "" "ssom:" name : replace_from
               "sssom:" "" (String.length "sssom:" - 1) ("ssom:" +:+ name) = _).
    by apply replace_from_no_occurrence.
  - rewrite bool_decide_eq_false_2 by done.
    by apply replace_from_no_occurrence.
Qed.

(** The slot of a key some row of the frame defines is built from a row of
    the frame that is not skipped and has that key. *)
Lemma convert_slot_of_key df k :
  (∃ r, r ∈ df ∧ is_element r ∧ slot_id r = k) →
  ∃ slots r', schema_slots (convert df) = Some slots ∧
    slots !! k = Some (JObj (slot_of r')) ∧
    r' ∈ df ∧ is_element r' ∧ slot_id r' = k.
Proof.
  intros (r & Hin & Hr & Hk).
  pose proof (foldl_convert_row_slots df k initial_converter_state) as Hlast.
  assert (Hsome : is_Some (last (filter (λ r', is_element r' ∧
                                  slot_id r' = k) df))).
  { apply last_is_Some. intros Hnil.
    assert (r ∈ filter (λ r', is_element r' ∧ slot_id r' = k) df)
      as Hf by (by apply list_elem_of_filter).
    rewrite Hnil in Hf. by apply elem_of_nil in Hf. }
  destruct Hsome as [r' Hr']. rewrite Hr' in Hlast.
  apply last_Some in Hr' as [l Hl].
  assert (r' ∈ filter (λ r', is_element r' ∧ slot_id r' = k) df)
    as Hf by (rewrite Hl; apply elem_of_app; right; by left).
  apply list_elem_of_filter in Hf as [[Hel Hid] Hdf].
  exists (cv_slots (foldl convert_row initial_converter_state df)), r'.
  split; [apply schema_slots_schema_of|]. by repeat split.
Qed.

(** X16: a row that [convert] does not skip (its [Element ID] is not [ID])
    and whose [Element ID] is [name], with or without the prefix [sssom:],
    gives the schema a slot called [name], when [sssom:] does not occur in
    [name]: both spellings share that one slot, which is built from a row
    of the frame that is not skipped and whose [Element ID] becomes [name]
    by the replacement. *)
Theorem convert_strips_prefix df r name :
  r ∈ df → Element_ID r ≠ "ID" →
  contains "sssom:" name = false →
  Element_ID r = "sssom:" +:+ name ∨ Element_ID r = name →
  ∃ slots r', schema_slots (convert df) = Some slots ∧
    slots !! name = Some (JObj (slot_of r')) ∧
    r' ∈ df ∧ Element_ID r' ≠ "ID" ∧
    str_replace "sssom:" "" (Element_ID r') = name.
Proof.
  intros Hin Hr Hname Hid.
  apply (convert_slot_of_key df name).
  exists r. split; [done|]. split; [done|].
  by apply slot_id_of_prefixed.
Qed.

Lemma convert_strips_prefix_witness :
  ∃ slots r', schema_slots (convert metadata_rows) = Some slots ∧
    slots !! "subject_id" = Some (JObj (slot_of r')) ∧
    r' ∈ metadata_rows ∧ Element_ID r' ≠ "ID" ∧
    str_replace "sssom:" "" (Element_ID r') = "subject_id".
Proof.
  apply (convert_strips_prefix metadata_rows
           (mkTsvRow "sssom:subject_id" (JStr "rdfs:Resource")
              (JStr "The ID of the subject of the mapping")
              (JStr "owl:annotatedSource") (JInt 1) "L")).
  - right. by left.
  - discriminate.
  - reflexivity.
  - by left.
Defined.
